(** * ax/Config.h: the compile-time location of the axlockd binary

    The header declares one object,

      static const char * const AXLOCKD_PATH

    whose initializer is chosen by the preprocessor: the expansion of the
    macro AXLOCKD_PATH_VALUE when the build defines it, the null pointer
    [(const char * )0] otherwise.  The development embeds the header as a
    function of the macro table in force where it is included, elaborates the
    declaration it yields into static storage, and states the properties of
    the value a caller then reads. *)

From Stdlib Require Import Strings.Byte.
From stdpp Require Import base option gmap strings list.

(** ** C values and static storage *)

#[global] Instance byte_eq_dec : EqDecision byte := Byte.byte_eq_dec.

(** The terminating null character. *)
Definition NUL : byte := x00.

(** The bytes of a literal, to write sample paths with. *)
Definition bytes (s : string) : list byte := String.list_byte_of_string s.

(** A value of type [const char *]: the null pointer, or the address of the
    char at offset [ofs] of the object [b]. *)
Inductive val :=
| Vnull
| Vptr (b : nat) (ofs : nat).

#[global] Instance val_eq_dec : EqDecision val.
Proof. solve_decision. Defined.

(** An object of static storage: an array of char.  The array of a string
    literal is not modifiable. *)
Record object := Object {
  contents : list byte;
  writable : bool
}.

(** A file-scope variable of pointer type, with the qualifier of the
    variable itself ([* const]) and of what it points to ([const char]). *)
Record global := Global {
  g_value : val;
  g_const : bool;
  g_pointee_const : bool
}.

Record state := State {
  mem : list object;
  globals : gmap string global
}.

Definition initial : state := State [] ∅.

(** ** The preprocessor's view *)

(** What a macro is replaced by, as far as this header is concerned: no
    token at all ([#define AX_CONFIG_H]), or one string literal
    ([-DAXLOCKD_PATH_VALUE='"/usr/local/libexec/axlockd"']), given by the
    bytes the literal denotes. *)
Inductive replacement :=
| Rnothing
| Rstring (s : list byte).

(** The initializer of a declaration, after macro expansion. *)
Inductive initializer :=
| Iexpansion (r : replacement)    (* = AXLOCKD_PATH_VALUE *)
| Inull_cast.                     (* = (const char * )0 *)

Record decl := Decl {
  d_name : string;
  d_const : bool;
  d_pointee_const : bool;
  d_init : initializer
}.

(** [static const char * const x = i;] *)
Definition static_const_char_ptr_const (x : string) (i : initializer) : decl :=
  Decl x true true i.

(** The header: the declarations it contributes to the translation unit and
    the macro table it leaves, given the table [M] in force where it is
    included. *)
Definition Config_h (M : gmap string replacement) : list decl * gmap string replacement :=
  match M !! "AX_CONFIG_H" with
  | Some _ => ([], M)                                     (* #ifndef AX_CONFIG_H *)
  | None =>
      let M := <["AX_CONFIG_H" := Rnothing]> M in         (* #define AX_CONFIG_H *)
      match M !! "AXLOCKD_PATH_VALUE" with                (* #ifdef AXLOCKD_PATH_VALUE *)
      | Some r =>
          ([static_const_char_ptr_const "AXLOCKD_PATH" (Iexpansion r)], M)
      | None =>                                           (* #else *)
          ([static_const_char_ptr_const "AXLOCKD_PATH" Inull_cast], M)
      end                                                 (* #endif *)
  end.

(** The build parameter: omitted, or supplied with a string. *)
Definition command_line (p : option (list byte)) : gmap string replacement :=
  match p with
  | Some s => {["AXLOCKD_PATH_VALUE" := Rstring s]}     (* -DAXLOCKD_PATH_VALUE='"s"' *)
  | None => ∅
  end.

(** ** Elaboration of declarations into static storage *)

Inductive error :=
| Syntax_error               (* an initializer with no expression *)
| Redefinition (x : string).

Inductive result (A : Type) :=
| Ok (a : A)
| Error (e : error).
Arguments Ok {A} a.
Arguments Error {A} e.

(** A string literal denotes a fresh unmodifiable array holding its bytes and
    a terminating null character; its value is the address of the first. *)
Definition string_literal (s : list byte) (m : list object) : val * list object :=
  (Vptr (length m) 0, m ++ [Object (s ++ [NUL]) false]).

Definition eval_init (i : initializer) (m : list object) : result (val * list object) :=
  match i with
  | Iexpansion Rnothing => Error Syntax_error
  | Iexpansion (Rstring s) => Ok (string_literal s m)
  | Inull_cast => Ok (Vnull, m)
  end.

Definition elab_decl (d : decl) (st : state) : result state :=
  match globals st !! d_name d with
  | Some _ => Error (Redefinition (d_name d))
  | None =>
      match eval_init (d_init d) (mem st) with
      | Error e => Error e
      | Ok (v, m) =>
          Ok (State m (<[d_name d := Global v (d_const d) (d_pointee_const d)]> (globals st)))
      end
  end.

Fixpoint elab_decls (ds : list decl) (st : state) : result state :=
  match ds with
  | [] => Ok st
  | d :: ds =>
      match elab_decl d st with
      | Error e => Error e
      | Ok st => elab_decls ds st
      end
  end.

(** A build with parameter [p]: the header, included under the macros of the
    command line, elaborated after whatever the translation unit has already
    defined ([st0]). *)
Definition build_from (p : option (list byte)) (st0 : state) : result state :=
  elab_decls (fst (Config_h (command_line p))) st0.

Definition build (p : option (list byte)) : result state := build_from p initial.

(** ** What a caller reads *)

(** The value of the expression [AXLOCKD_PATH]. *)
Definition AXLOCKD_PATH (st : state) : option val :=
  g_value <$> globals st !! "AXLOCKD_PATH".

(** [p[i]] *)
Definition load_char (st : state) (p : val) (i : nat) : option byte :=
  match p with
  | Vnull => None
  | Vptr b ofs => o ← mem st !! b; contents o !! (ofs + i)
  end.

(** The string that starts at the head of [bs]: the bytes before the first
    null character; none if [bs] holds no null character. *)
Fixpoint cstring (bs : list byte) : option (list byte) :=
  match bs with
  | [] => None
  | c :: bs => if decide (c = NUL) then Some [] else (c ::.) <$> cstring bs
  end.

(** The string a pointer points to. *)
Definition load_cstring (st : state) (p : val) : option (list byte) :=
  match p with
  | Vnull => None
  | Vptr b ofs => o ← mem st !! b; cstring (drop ofs (contents o))
  end.

(** The resolved location: absent (the null pointer) or a path. *)
Inductive resolution :=
| Absent
| Present (path : list byte).

#[global] Instance resolution_eq_dec : EqDecision resolution.
Proof. solve_decision. Defined.

(** The caller's test [AXLOCKD_PATH != NULL] and the string it then uses.
    [None]: the variable is not declared, or points to no string. *)
Definition resolved (st : state) : option resolution :=
  p ← AXLOCKD_PATH st;
  match p with
  | Vnull => Some Absent
  | Vptr _ _ => Present <$> load_cstring st p
  end.

Definition resolve (p : option (list byte)) : option resolution :=
  match build p with
  | Ok st => resolved st
  | Error _ => None
  end.


(** The array a pointer points into, from the char it addresses on. *)
Definition pointee (st : state) (p : val) : option (list byte) :=
  match p with
  | Vnull => None
  | Vptr b ofs => o ← mem st !! b; Some (drop ofs (contents o))
  end.

(** A POSIX path is absolute when it starts with a slash. *)
Definition absolute (s : list byte) : bool :=
  match s with
  | c :: _ => bool_decide (c = "/"%byte)
  | [] => false
  end.

(** The two shapes the contract names for the output: the absent value, or a
    non-empty absolute path. *)
Definition absent_or_absolute (r : resolution) : bool :=
  match r with
  | Absent => true
  | Present s => bool_decide (s ≠ []) && absolute s
  end.

(** ** What a caller can do with a variable of the translation unit *)

Inductive op :=
| Read (x : string)                          (* ... = x *)
| Assign (x : string) (v : val)              (* x = v *)
| Load (x : string) (i : nat)                (* ... = x[i] *)
| Store (x : string) (i : nat) (c : byte).   (* x[i] = c *)

Inductive outcome :=
| Oval (v : val)
| Ochar (c : byte)
| Ounit.

(** One operation.  [None]: the operation is not a C program (an assignment
    to a const-qualified lvalue does not compile) or has no defined behaviour
    (a null or out-of-bounds access, a store into a string literal). *)
Definition exec (o : op) (st : state) : option (outcome * state) :=
  match o with
  | Read x =>
      g ← globals st !! x; Some (Oval (g_value g), st)
  | Assign x v =>
      g ← globals st !! x;
      if g_const g then None
      else Some (Ounit,
                 State (mem st)
                       (<[x := Global v (g_const g) (g_pointee_const g)]> (globals st)))
  | Load x i =>
      g ← globals st !! x; c ← load_char st (g_value g) i; Some (Ochar c, st)
  | Store x i c =>
      g ← globals st !! x;
      if g_pointee_const g then None
      else match g_value g with
           | Vnull => None
           | Vptr b ofs =>
               o ← mem st !! b;
               if writable o && bool_decide (ofs + i < length (contents o))
               then Some (Ounit,
                          State (<[b := Object (<[ofs + i := c]> (contents o)) true]> (mem st))
                                (globals st))
               else None
           end
  end.

Fixpoint run (ops : list op) (st : state) : option (list outcome * state) :=
  match ops with
  | [] => Some ([], st)
  | o :: ops =>
      '(r, st) ← exec o st;
      '(rs, st) ← run ops st;
      Some (r :: rs, st)
  end.

(** [st'] keeps every const-qualified variable and every unmodifiable object
    of [st] as it is. *)
Definition preserves (st st' : state) : Prop :=
  (∀ x g, globals st !! x = Some g → g_const g = true → globals st' !! x = Some g) ∧
  (∀ b o, mem st !! b = Some o → writable o = false → mem st' !! b = Some o).

(** The state right after the declaration of the header took effect: the
    variable is constant, and null or the address of an unmodifiable,
    null-terminated array. *)
Definition declared (st : state) : Prop :=
  ∃ v, globals st !! "AXLOCKD_PATH" = Some (Global v true true) ∧
       match v with
       | Vnull => True
       | Vptr b ofs =>
           ofs = 0 ∧ ∃ s, mem st !! b = Some (Object (s ++ [NUL]) false)
       end.

(** ** Sample translation units and callers *)

(** A translation unit that has defined, before it includes the header, a
    modifiable buffer and a pointer [buf] to it. *)
Definition other_unit : state :=
  State [Object (bytes "scratch" ++ [NUL]) true]
        {["buf" := Global (Vptr 0 0) false false]}.

(** A caller that reads the variable, writes to its own buffer, reads a
    char of the path, redirects its own pointer to the path, and reads the
    variable again. *)
Definition busy_caller : list op :=
  [Read "AXLOCKD_PATH"; Store "buf" 0 "S"%byte; Load "AXLOCKD_PATH" 1;
   Assign "buf" (Vptr 1 0); Read "AXLOCKD_PATH"].

(** ** The header under any macro table, and included more than once *)

(** A build under the macro table [M], whatever else the build defines. *)
Definition build_under (M : gmap string replacement) (st0 : state) : result state :=
  elab_decls (fst (Config_h M)) st0.

(** [#include "Config.h"], [n] times in a row: the declarations add up, the
    macro table is threaded through. *)
Fixpoint include_times (n : nat) (M : gmap string replacement)
    : list decl * gmap string replacement :=
  match n with
  | 0 => ([], M)
  | S n =>
      let '(ds, M) := Config_h M in
      let '(ds', M) := include_times n M in
      (ds ++ ds', M)
  end.

(** * Properties *)

(** ** The scenarios of the build documentation *)

Example resolve_distribution :
  resolve (Some (bytes "/usr/local/libexec/axlockd"))
  = Some (Present (bytes "/usr/local/libexec/axlockd")).
Proof. vm_compute. reflexivity. Qed.

Example resolve_development : resolve None = Some Absent.
Proof. vm_compute. reflexivity. Qed.

Example resolve_empty : resolve (Some []) = Some (Present []).
Proof. vm_compute. reflexivity. Qed.

(** ** The preprocessor branch *)

Lemma Config_h_supplied (S : list byte) :
  fst (Config_h (command_line (Some S)))
  = [static_const_char_ptr_const "AXLOCKD_PATH" (Iexpansion (Rstring S))].
Proof.
  unfold Config_h, command_line.
  rewrite lookup_singleton_ne by done.
  rewrite lookup_insert_ne by done.
  by rewrite lookup_singleton_eq.
Qed.

Lemma Config_h_omitted :
  fst (Config_h (command_line None))
  = [static_const_char_ptr_const "AXLOCKD_PATH" Inull_cast].
Proof. reflexivity. Qed.

(** The include guard: a second inclusion contributes nothing, so the
    variable is declared once. *)
Lemma Config_h_included_twice (M : gmap string replacement) :
  fst (Config_h (snd (Config_h M))) = [].
Proof.
  unfold Config_h at 2.
  destruct (M !! "AX_CONFIG_H") as [r|] eqn:HM; simpl.
  - unfold Config_h. by rewrite HM.
  - destruct (<["AX_CONFIG_H":=Rnothing]> M !! "AXLOCKD_PATH_VALUE"); simpl;
      unfold Config_h; by rewrite lookup_insert_eq.
Qed.

(** ** Elaboration *)

Lemma build_from_supplied (S : list byte) (st0 : state) :
  globals st0 !! "AXLOCKD_PATH" = None →
  build_from (Some S) st0
  = Ok (State (mem st0 ++ [Object (S ++ [NUL]) false])
              (<["AXLOCKD_PATH" := Global (Vptr (length (mem st0)) 0) true true]>
                 (globals st0))).
Proof.
  intros Hfresh. unfold build_from. rewrite Config_h_supplied.
  simpl. unfold elab_decl. simpl. by rewrite Hfresh.
Qed.

Lemma build_from_omitted (st0 : state) :
  globals st0 !! "AXLOCKD_PATH" = None →
  build_from None st0
  = Ok (State (mem st0) (<["AXLOCKD_PATH" := Global Vnull true true]> (globals st0))).
Proof.
  intros Hfresh. unfold build_from. rewrite Config_h_omitted.
  simpl. unfold elab_decl. simpl. by rewrite Hfresh.
Qed.

Lemma build_from_redefinition (p : option (list byte)) (st0 : state) :
  is_Some (globals st0 !! "AXLOCKD_PATH") →
  build_from p st0 = Error (Redefinition "AXLOCKD_PATH").
Proof.
  intros [g Hg]. unfold build_from.
  destruct p as [S|]; [rewrite Config_h_supplied | rewrite Config_h_omitted];
    simpl; unfold elab_decl; simpl; by rewrite Hg.
Qed.

Lemma build_from_Ok_fresh (p : option (list byte)) (st0 st : state) :
  build_from p st0 = Ok st → globals st0 !! "AXLOCKD_PATH" = None.
Proof.
  intros Hb. destruct (globals st0 !! "AXLOCKD_PATH") as [g|] eqn:Hg; [|done].
  rewrite build_from_redefinition in Hb by (by rewrite Hg). discriminate.
Qed.

(** ** Strings *)

Lemma cstring_string (s t : list byte) :
  NUL ∉ s → cstring (s ++ NUL :: t) = Some s.
Proof.
  induction s as [|c s IH]; intros Hs; cbn [app cstring].
  - by rewrite decide_True.
  - apply not_elem_of_cons in Hs as [Hc Hs].
    rewrite decide_False by done. by rewrite IH.
Qed.

Lemma cstring_terminated (s t : list byte) :
  ∃ s', cstring (s ++ NUL :: t) = Some s' ∧ s' `prefix_of` s.
Proof.
  induction s as [|c s (s' & IH & Hpre)]; cbn [app cstring].
  - exists []. rewrite decide_True by done. split; [done|]. apply prefix_nil.
  - destruct (decide (c = NUL)).
    + exists []. split; [done|]. apply prefix_nil.
    + exists (c :: s'). rewrite IH. split; [done|]. by apply prefix_cons.
Qed.

Lemma cstring_no_NUL (bs s : list byte) : cstring bs = Some s → NUL ∉ s.
Proof.
  revert s. induction bs as [|c bs IH]; intros s; cbn [cstring]; [done|].
  destruct (decide (c = NUL)).
  - intros [= <-]. apply not_elem_of_nil.
  - destruct (cstring bs) as [s'|]; simpl; [|done].
    intros [= <-]. apply not_elem_of_cons. split; [done|]. by apply IH.
Qed.

(** ** Reading a freshly built state *)

Section supplied.
Context (S : list byte) (st0 st : state).
Hypothesis Hbuild : build_from (Some S) st0 = Ok st.

Lemma built_supplied :
  st = State (mem st0 ++ [Object (S ++ [NUL]) false])
             (<["AXLOCKD_PATH" := Global (Vptr (length (mem st0)) 0) true true]>
                (globals st0)).
Proof.
  pose proof (build_from_Ok_fresh _ _ _ Hbuild) as Hfresh.
  rewrite build_from_supplied in Hbuild by done. by injection Hbuild as <-.
Qed.

Lemma AXLOCKD_PATH_supplied :
  AXLOCKD_PATH st = Some (Vptr (length (mem st0)) 0).
Proof.
  rewrite built_supplied. unfold AXLOCKD_PATH. simpl.
  by rewrite lookup_insert_eq.
Qed.

Lemma literal_supplied :
  mem st !! length (mem st0) = Some (Object (S ++ [NUL]) false).
Proof.
  rewrite built_supplied. simpl.
  rewrite lookup_app_r by lia. by rewrite Nat.sub_diag.
Qed.

Lemma pointee_supplied :
  pointee st (Vptr (length (mem st0)) 0) = Some (S ++ [NUL]).
Proof. unfold pointee. by rewrite literal_supplied. Qed.

Lemma load_char_supplied (i : nat) :
  i < length S → load_char st (Vptr (length (mem st0)) 0) i = S !! i.
Proof.
  intros Hi. unfold load_char. rewrite literal_supplied. simpl.
  by rewrite lookup_app_l.
Qed.

Lemma load_char_supplied_NUL :
  load_char st (Vptr (length (mem st0)) 0) (length S) = Some NUL.
Proof.
  unfold load_char. rewrite literal_supplied. simpl.
  rewrite lookup_app_r by lia. by rewrite Nat.sub_diag.
Qed.

Lemma load_cstring_supplied :
  load_cstring st (Vptr (length (mem st0)) 0) = cstring (S ++ [NUL]).
Proof. unfold load_cstring. rewrite literal_supplied. simpl. by rewrite drop_0. Qed.

Lemma resolved_supplied :
  ∃ s, resolved st = Some (Present s) ∧ s `prefix_of` S.
Proof.
  unfold resolved. rewrite AXLOCKD_PATH_supplied. cbn [mbind option_bind].
  rewrite load_cstring_supplied.
  destruct (cstring_terminated S []) as (s & -> & Hs). by exists s.
Qed.

Lemma resolved_supplied_string :
  NUL ∉ S → resolved st = Some (Present S).
Proof.
  intros HS. unfold resolved. rewrite AXLOCKD_PATH_supplied.
  cbn [mbind option_bind]. rewrite load_cstring_supplied.
  by rewrite cstring_string.
Qed.

Lemma resolved_supplied_not_Absent : resolved st ≠ Some Absent.
Proof. destruct resolved_supplied as (s & -> & _). discriminate. Qed.
End supplied.

Section omitted.
Context (st0 st : state).
Hypothesis Hbuild : build_from None st0 = Ok st.

Lemma built_omitted :
  st = State (mem st0) (<["AXLOCKD_PATH" := Global Vnull true true]> (globals st0)).
Proof.
  pose proof (build_from_Ok_fresh _ _ _ Hbuild) as Hfresh.
  rewrite build_from_omitted in Hbuild by done. by injection Hbuild as <-.
Qed.

Lemma AXLOCKD_PATH_omitted : AXLOCKD_PATH st = Some Vnull.
Proof.
  rewrite built_omitted. unfold AXLOCKD_PATH. simpl.
  by rewrite lookup_insert_eq.
Qed.

Lemma resolved_omitted : resolved st = Some Absent.
Proof. unfold resolved. by rewrite AXLOCKD_PATH_omitted. Qed.
End omitted.

Lemma build_from_declared (p : option (list byte)) (st0 st : state) :
  build_from p st0 = Ok st → declared st.
Proof.
  intros Hb. destruct p as [S|].
  - exists (Vptr (length (mem st0)) 0). split.
    + rewrite (built_supplied _ _ _ Hb). simpl. by rewrite lookup_insert_eq.
    + split; [done|]. exists S. by apply literal_supplied.
  - exists Vnull. split; [|done].
    rewrite (built_omitted _ _ Hb). simpl. by rewrite lookup_insert_eq.
Qed.

(** Elaboration touches nothing that was there before. *)
Lemma build_from_frame (p : option (list byte)) (st0 st : state) :
  build_from p st0 = Ok st →
  (∀ x, x ≠ "AXLOCKD_PATH" → globals st !! x = globals st0 !! x) ∧
  (∀ b o, mem st0 !! b = Some o → mem st !! b = Some o).
Proof.
  intros Hb. destruct p as [S|].
  - rewrite (built_supplied _ _ _ Hb). simpl. split.
    + intros x Hx. by rewrite lookup_insert_ne.
    + intros b o Ho. rewrite lookup_app_l; [done|]. by eapply lookup_lt_Some.
  - rewrite (built_omitted _ _ Hb). simpl. split; [|done].
    intros x Hx. by rewrite lookup_insert_ne.
Qed.

(** ** What the caller's operations keep *)

Lemma preserves_refl (st : state) : preserves st st.
Proof. by split. Qed.

Lemma preserves_trans (st1 st2 st3 : state) :
  preserves st1 st2 → preserves st2 st3 → preserves st1 st3.
Proof.
  intros [Hg12 Hm12] [Hg23 Hm23]. split.
  - intros x g Hx Hc. apply Hg23; [|done]. by apply Hg12.
  - intros b o Hb Hw. apply Hm23; [|done]. by apply Hm12.
Qed.

Lemma exec_preserves (o : op) (st st' : state) (r : outcome) :
  exec o st = Some (r, st') → preserves st st'.
Proof.
  destruct o as [x|x v|x i|x i c]; simpl; intros He.
  - destruct (globals st !! x); simplify_eq/=. apply preserves_refl.
  - destruct (globals st !! x) as [g|] eqn:Hx; simplify_eq/=.
    destruct (g_const g) eqn:Hc; simplify_eq/=.
    split; simpl; [|done]. intros y g' Hy Hc'.
    destruct (decide (x = y)) as [->|Hne]; [congruence|].
    by rewrite lookup_insert_ne.
  - destruct (globals st !! x) as [g|]; simplify_eq/=.
    destruct (load_char st (g_value g) i); simplify_eq/=. apply preserves_refl.
  - destruct (globals st !! x) as [g|]; simplify_eq/=.
    destruct (g_pointee_const g); simplify_eq/=.
    destruct (g_value g) as [|b ofs]; simplify_eq/=.
    destruct (mem st !! b) as [ob|] eqn:Hb; simplify_eq/=.
    destruct (writable ob) eqn:Hw; simplify_eq/=.
    case_bool_decide; simplify_eq/=.
    split; simpl; [done|]. intros b' o' Hb' Hw'.
    destruct (decide (b = b')) as [->|Hne]; [congruence|].
    by rewrite list_lookup_insert_ne.
Qed.

Lemma run_preserves (ops : list op) (st st' : state) (rs : list outcome) :
  run ops st = Some (rs, st') → preserves st st'.
Proof.
  revert st rs. induction ops as [|o ops IH]; intros st rs; simpl.
  - intros [= _ <-]. apply preserves_refl.
  - destruct (exec o st) as [[r st1]|] eqn:He; simpl; [|done].
    destruct (run ops st1) as [[rs1 st2]|] eqn:Hr; simpl; [|done].
    intros [= _ <-]. eapply preserves_trans.
    + by eapply exec_preserves.
    + by eapply IH.
Qed.

Section kept.
Context (st st' : state).
Hypothesis Hdecl : declared st.
Hypothesis Hkept : preserves st st'.

Lemma declared_preserved : declared st'.
Proof.
  destruct Hdecl as (v & Hv & Hlit), Hkept as [Hg Hm].
  exists v. split; [by apply Hg|].
  destruct v as [|b ofs]; [done|]. destruct Hlit as (-> & s & Hs).
  split; [done|]. exists s. by apply Hm.
Qed.

Lemma AXLOCKD_PATH_preserved : AXLOCKD_PATH st' = AXLOCKD_PATH st.
Proof.
  destruct Hdecl as (v & Hv & _), Hkept as [Hg _].
  unfold AXLOCKD_PATH. by rewrite (Hg _ _ Hv eq_refl), Hv.
Qed.

Lemma pointee_preserved (p : val) :
  AXLOCKD_PATH st = Some p → pointee st' p = pointee st p.
Proof.
  destruct Hdecl as (v & Hv & Hlit), Hkept as [_ Hm].
  unfold AXLOCKD_PATH. rewrite Hv. intros [= <-].
  destruct v as [|b ofs]; [done|]. destruct Hlit as (-> & s & Hs).
  unfold pointee. by rewrite (Hm _ _ Hs eq_refl), Hs.
Qed.

Lemma load_cstring_preserved (p : val) :
  AXLOCKD_PATH st = Some p → load_cstring st' p = load_cstring st p.
Proof.
  destruct Hdecl as (v & Hv & Hlit), Hkept as [_ Hm].
  unfold AXLOCKD_PATH. rewrite Hv. intros [= <-].
  destruct v as [|b ofs]; [done|]. destruct Hlit as (-> & s & Hs).
  unfold load_cstring. by rewrite (Hm _ _ Hs eq_refl), Hs.
Qed.

Lemma resolved_preserved : resolved st' = resolved st.
Proof.
  unfold resolved. rewrite AXLOCKD_PATH_preserved.
  destruct (AXLOCKD_PATH st) as [p|] eqn:Hp; [|done].
  cbn [mbind option_bind]. destruct p as [|b ofs]; [done|].
  by rewrite load_cstring_preserved.
Qed.
End kept.

(** Reading the variable [n] times. *)
Lemma run_reads (st : state) (v : val) (n : nat) :
  AXLOCKD_PATH st = Some v →
  run (replicate n (Read "AXLOCKD_PATH")) st = Some (replicate n (Oval v), st).
Proof.
  unfold AXLOCKD_PATH. intros Hv. induction n as [|n IH]; simpl; [done|].
  destruct (globals st !! "AXLOCKD_PATH") as [g|]; simplify_eq/=.
  by rewrite IH.
Qed.

(** There is no way to write to it. *)
Lemma exec_Assign_declared (st : state) (v : val) :
  declared st → exec (Assign "AXLOCKD_PATH" v) st = None.
Proof. intros (w & Hw & _). simpl. by rewrite Hw. Qed.

Lemma exec_Store_declared (st : state) (i : nat) (c : byte) :
  declared st → exec (Store "AXLOCKD_PATH" i c) st = None.
Proof. intros (w & Hw & _). simpl. by rewrite Hw. Qed.

Lemma resolved_supplied_eq (S : list byte) (st0 st : state) :
  build_from (Some S) st0 = Ok st → resolved st = Present <$> cstring (S ++ [NUL]).
Proof.
  intros Hb. unfold resolved. rewrite (AXLOCKD_PATH_supplied _ _ _ Hb).
  cbn [mbind option_bind]. by rewrite (load_cstring_supplied _ _ _ Hb).
Qed.

Lemma cstring_absolute (S t s : list byte) :
  cstring (S ++ NUL :: t) = Some s → absolute s = absolute S.
Proof.
  destruct S as [|c S]; cbn [app cstring].
  - rewrite decide_True by done. by intros [= <-].
  - destruct (decide (c = NUL)) as [->|Hc].
    + by intros [= <-].
    + destruct (cstring (S ++ NUL :: t)); simpl; [|done]. by intros [= <-].
Qed.

Lemma absolute_nonempty (s : list byte) : absolute s = true → s ≠ [].
Proof. by destruct s. Qed.

Lemma initial_fresh : globals initial !! "AXLOCKD_PATH" = None.
Proof. reflexivity. Qed.

(** The value a build resolves to, as a function of the parameter alone. *)
Lemma resolve_supplied (S : list byte) :
  resolve (Some S) = Present <$> cstring (S ++ [NUL]).
Proof.
  unfold resolve, build.
  destruct (build_from (Some S) initial) as [st|e] eqn:Hb.
  - by apply resolved_supplied_eq with initial.
  - by rewrite build_from_supplied in Hb.
Qed.

Lemma resolve_omitted : resolve None = Some Absent.
Proof. reflexivity. Qed.

Lemma other_unit_fresh : globals other_unit !! "AXLOCKD_PATH" = None.
Proof. reflexivity. Qed.

(** In [other_unit] the literal is the second object; in [initial] it is
    the first: the pointer differs, the path read through it does not. *)
Example pointer_depends_on_layout :
  (st ← (match build_from (Some (bytes "/opt/ax")) other_unit with
         | Ok st => Some st | Error _ => None end);
   AXLOCKD_PATH st) = Some (Vptr 1 0) ∧
  (st ← (match build_from (Some (bytes "/opt/ax")) initial with
         | Ok st => Some st | Error _ => None end);
   AXLOCKD_PATH st) = Some (Vptr 0 0).
Proof. split; vm_compute; reflexivity. Qed.

(** * The contract of the resolver *)

(** C1.  In every build that supplies AXLOCKD_PATH_VALUE with a non-empty
    string [S], AXLOCKD_PATH is [S] itself, byte for byte: it points to an
    array holding the bytes of [S] and the terminating null character,
    every index reads the byte [S] has there, and the string a caller reads
    through it is [S] (a string, in C, holding no null character). Nothing is
    trimmed, normalized or canonicalized. *)
Theorem supplied_path_verbatim (S : list byte) (st0 : state) :
  S ≠ [] →
  globals st0 !! "AXLOCKD_PATH" = None →
  ∃ st p,
    build_from (Some S) st0 = Ok st ∧
    AXLOCKD_PATH st = Some p ∧
    pointee st p = Some (S ++ [NUL]) ∧
    (∀ i, i < length S → load_char st p i = S !! i) ∧
    load_char st p (length S) = Some NUL ∧
    (NUL ∉ S → resolved st = Some (Present S)).
Proof.
  intros _ Hfresh.
  pose proof (build_from_supplied S st0 Hfresh) as Hb.
  eexists _, (Vptr (length (mem st0)) 0). split; [exact Hb|].
  split; [by eapply AXLOCKD_PATH_supplied|].
  split; [by eapply pointee_supplied|].
  split; [intros i; by eapply load_char_supplied|].
  split; [by eapply load_char_supplied_NUL|].
  by eapply resolved_supplied_string.
Qed.

Lemma supplied_path_verbatim_witness :
  ∃ st p,
    build_from (Some (bytes "/usr/local/libexec/axlockd")) initial = Ok st ∧
    AXLOCKD_PATH st = Some p ∧
    pointee st p = Some (bytes "/usr/local/libexec/axlockd" ++ [NUL]) ∧
    resolved st = Some (Present (bytes "/usr/local/libexec/axlockd")).
Proof.
  destruct (supplied_path_verbatim (bytes "/usr/local/libexec/axlockd") initial)
    as (st & p & Hb & Hp & Harr & _ & _ & Hres).
  - discriminate.
  - reflexivity.
  - exists st, p. repeat split; try assumption.
    apply Hres. apply (bool_decide_unpack _). vm_compute. exact I.
Defined.

(** C2.  In every build that omits AXLOCKD_PATH_VALUE, AXLOCKD_PATH is the
    null pointer, whatever the translation unit holds besides: the resolved
    value is the absent one, it is not the empty string, and the null pointer
    points to no string at all. *)
Theorem omitted_path_absent (st0 : state) :
  globals st0 !! "AXLOCKD_PATH" = None →
  ∃ st,
    build_from None st0 = Ok st ∧
    AXLOCKD_PATH st = Some Vnull ∧
    resolved st = Some Absent ∧
    resolved st ≠ Some (Present []) ∧
    load_cstring st Vnull = None.
Proof.
  intros Hfresh. pose proof (build_from_omitted st0 Hfresh) as Hb.
  eexists. split; [exact Hb|].
  split; [by eapply AXLOCKD_PATH_omitted|].
  rewrite (resolved_omitted _ _ Hb). done.
Qed.

Lemma omitted_path_absent_witness :
  ∃ st,
    build_from None other_unit = Ok st ∧
    AXLOCKD_PATH st = Some Vnull ∧
    resolved st = Some Absent.
Proof.
  destruct (omitted_path_absent other_unit) as (st & Hb & Hp & Hres & _).
  - reflexivity.
  - by exists st.
Defined.

(** C3, as stated, fails: a build that supplies the empty string resolves to
    the empty string, which is present and is no non-empty absolute path. *)
Lemma empty_path_is_neither_shape :
  resolve (Some []) = Some (Present []) ∧
  absent_or_absolute (Present []) = false.
Proof. split; vm_compute; reflexivity. Qed.

(** So does a build that supplies a relative path. *)
Example relative_path_is_neither_shape :
  resolve (Some (bytes "libexec/axlockd")) = Some (Present (bytes "libexec/axlockd")) ∧
  absent_or_absolute (Present (bytes "libexec/axlockd")) = false.
Proof. split; vm_compute; reflexivity. Qed.

(** C3, amended.  The output is always one of exactly two things: the
    absent value, when the parameter is omitted, or the supplied string,
    passed through as it is, whether or not it is a non-empty absolute path.
    It is a non-empty absolute path exactly when the supplied string is
    one. *)
Theorem resolved_absent_or_supplied (p : option (list byte)) (st0 : state) :
  globals st0 !! "AXLOCKD_PATH" = None →
  ∃ st r,
    build_from p st0 = Ok st ∧
    resolved st = Some r ∧
    match p with
    | None => r = Absent
    | Some lit =>
        (∃ s, r = Present s) ∧
        (∃ q, AXLOCKD_PATH st = Some q ∧ pointee st q = Some (lit ++ [NUL])) ∧
        (NUL ∉ lit → r = Present lit) ∧
        (absent_or_absolute r = true ↔ lit ≠ [] ∧ absolute lit = true)
    end.
Proof.
  intros Hfresh. destruct p as [S|].
  - pose proof (build_from_supplied S st0 Hfresh) as Hb.
    pose proof (resolved_supplied_eq _ _ _ Hb) as Hres.
    destruct (cstring_terminated S []) as (s & Hs & Hpre).
    rewrite Hs in Hres. simpl in Hres.
    eexists _, (Present s). split; [exact Hb|]. split; [exact Hres|].
    split; [by exists s|]. split.
    { exists (Vptr (length (mem st0)) 0).
      split; [by eapply AXLOCKD_PATH_supplied | by eapply pointee_supplied]. }
    split.
    { intros HS. rewrite cstring_string in Hs by done. congruence. }
    simpl. rewrite (cstring_absolute _ _ _ Hs). split.
    + intros [_ Habs]%andb_true_iff. split; [|done]. by apply absolute_nonempty.
    + intros [_ Habs]. rewrite Habs, andb_true_r. apply bool_decide_eq_true.
      apply absolute_nonempty. by rewrite (cstring_absolute _ _ _ Hs).
  - pose proof (build_from_omitted st0 Hfresh) as Hb.
    eexists _, Absent. split; [exact Hb|]. split; [|done].
    by eapply resolved_omitted.
Qed.

Lemma resolved_absent_or_supplied_witness :
  ∃ st,
    build_from (Some (bytes "axlockd")) initial = Ok st ∧
    resolved st = Some (Present (bytes "axlockd")) ∧
    absent_or_absolute (Present (bytes "axlockd")) = false.
Proof.
  destruct (resolved_absent_or_supplied (Some (bytes "axlockd")) initial)
    as (st & r & Hb & Hres & _ & _ & Hstr & _).
  - reflexivity.
  - exists st. split; [exact Hb|]. split; [|reflexivity].
    rewrite Hres. f_equal. apply Hstr.
    apply (bool_decide_unpack _). vm_compute. exact I.
Defined.

(** C4.  A build that supplies the empty string resolves to exactly the
    empty string: a non-null pointer to a lone null character, present and
    empty.  The null pointer of a build that omits the parameter differs, as a
    pointer and as a resolved value, from what any supplied string yields,
    the empty one included. *)
Theorem empty_string_is_present_not_absent (st0 : state) :
  globals st0 !! "AXLOCKD_PATH" = None →
  ∃ st q,
    build_from (Some []) st0 = Ok st ∧
    AXLOCKD_PATH st = Some q ∧ q ≠ Vnull ∧
    pointee st q = Some [NUL] ∧
    resolved st = Some (Present []) ∧
    ∀ (S : list byte) (sa sb ta tb : state),
      build_from None sa = Ok ta →
      build_from (Some S) sb = Ok tb →
      AXLOCKD_PATH ta = Some Vnull ∧
      AXLOCKD_PATH tb ≠ Some Vnull ∧
      resolved ta = Some Absent ∧
      resolved tb ≠ Some Absent.
Proof.
  intros Hfresh. pose proof (build_from_supplied [] st0 Hfresh) as Hb.
  eexists _, (Vptr (length (mem st0)) 0). split; [exact Hb|].
  split; [by eapply AXLOCKD_PATH_supplied|]. split; [done|].
  split; [exact (pointee_supplied [] _ _ Hb)|].
  split; [eapply resolved_supplied_string; [exact Hb | apply not_elem_of_nil]|].
  intros S sa sb ta tb Ha Hs.
  split; [by eapply AXLOCKD_PATH_omitted|].
  split; [by rewrite (AXLOCKD_PATH_supplied _ _ _ Hs)|].
  split; [by eapply resolved_omitted | by eapply resolved_supplied_not_Absent].
Qed.

Lemma empty_string_is_present_not_absent_witness :
  ∃ st q,
    build_from (Some []) initial = Ok st ∧
    AXLOCKD_PATH st = Some q ∧ q ≠ Vnull ∧
    pointee st q = Some [NUL] ∧
    resolved st = Some (Present []).
Proof.
  destruct (empty_string_is_present_not_absent initial)
    as (st & q & Hb & Hq & Hnn & Harr & Hres & _).
  - reflexivity.
  - by exists st, q.
Defined.

(** C5.  Resolution cannot fail.  Whatever the parameter, omitted or any
    string, the declaration elaborates, a value is resolved, every other
    variable and every object of the translation unit is left as it was,
    and the absent value is the regular outcome of the omitted parameter,
    not an error.  Elaboration is a function of the parameter and of the
    static storage alone: there is no file system for it to consult. *)
Theorem resolution_cannot_fail (p : option (list byte)) (st0 : state) :
  globals st0 !! "AXLOCKD_PATH" = None →
  ∃ st r,
    build_from p st0 = Ok st ∧
    resolved st = Some r ∧
    is_Some (resolve p) ∧
    (∀ x, x ≠ "AXLOCKD_PATH" → globals st !! x = globals st0 !! x) ∧
    (∀ b o, mem st0 !! b = Some o → mem st !! b = Some o) ∧
    (r = Absent ↔ p = None).
Proof.
  intros Hfresh. destruct p as [S|].
  - pose proof (build_from_supplied S st0 Hfresh) as Hb.
    destruct (resolved_supplied _ _ _ Hb) as (s & Hres & _).
    eexists _, (Present s). split; [exact Hb|]. split; [exact Hres|].
    split.
    { rewrite resolve_supplied.
      destruct (cstring_terminated S []) as (s' & -> & _). by eexists. }
    destruct (build_from_frame _ _ _ Hb) as [Hg Hm]. by repeat split.
  - pose proof (build_from_omitted st0 Hfresh) as Hb.
    eexists _, Absent. split; [exact Hb|].
    split; [by eapply resolved_omitted|].
    split; [by eexists|].
    destruct (build_from_frame _ _ _ Hb) as [Hg Hm]. by repeat split.
Qed.

Lemma resolution_cannot_fail_witness :
  ∃ st r,
    build_from (Some (bytes "/no/such/file")) other_unit = Ok st ∧
    resolved st = Some r ∧
    globals st !! "buf" = Some (Global (Vptr 0 0) false false) ∧
    mem st !! 0 = Some (Object (bytes "scratch" ++ [NUL]) true).
Proof.
  destruct (resolution_cannot_fail (Some (bytes "/no/such/file")) other_unit)
    as (st & r & Hb & Hres & _ & Hg & Hm & _).
  - reflexivity.
  - exists st, r. split; [exact Hb|]. split; [exact Hres|]. split.
    + by rewrite Hg.
    + by apply Hm.
Defined.

(** C6.  Within one run of the process the resolved value is stable.  From
    the state a build starts in, after any operations of the caller that C
    gives a meaning to, AXLOCKD_PATH and the path read through it are what
    they were at the start; reading the variable any number of times yields
    the same pointer each time and changes nothing; and an assignment to the
    variable, or a store through it, is no operation at all. *)
Theorem resolved_value_stable
    (p : option (list byte)) (st0 st st' : state) (ops : list op) (rs : list outcome) :
  build_from p st0 = Ok st →
  run ops st = Some (rs, st') →
  AXLOCKD_PATH st' = AXLOCKD_PATH st ∧
  resolved st' = resolved st ∧
  (∃ v, AXLOCKD_PATH st = Some v ∧
        ∀ n, run (replicate n (Read "AXLOCKD_PATH")) st'
             = Some (replicate n (Oval v), st')) ∧
  (∀ v, exec (Assign "AXLOCKD_PATH" v) st' = None) ∧
  (∀ i c, exec (Store "AXLOCKD_PATH" i c) st' = None).
Proof.
  intros Hb Hr.
  pose proof (build_from_declared _ _ _ Hb) as Hdecl.
  pose proof (run_preserves _ _ _ _ Hr) as Hkept.
  pose proof (declared_preserved _ _ Hdecl Hkept) as Hdecl'.
  pose proof (AXLOCKD_PATH_preserved _ _ Hdecl Hkept) as Hsame.
  split; [done|]. split; [by apply resolved_preserved|]. split.
  - destruct Hdecl as (v & Hv & _). exists v.
    assert (AXLOCKD_PATH st = Some v) as Hst by (unfold AXLOCKD_PATH; by rewrite Hv).
    split; [done|]. intros n. apply run_reads. by rewrite Hsame.
  - split.
    + intros v. by apply exec_Assign_declared.
    + intros i c. by apply exec_Store_declared.
Qed.

Lemma resolved_value_stable_witness :
  ∃ st st' rs,
    build_from (Some (bytes "/opt/ax")) other_unit = Ok st ∧
    run busy_caller st = Some (rs, st') ∧
    st' ≠ st ∧
    AXLOCKD_PATH st' = Some (Vptr 1 0) ∧
    resolved st' = Some (Present (bytes "/opt/ax")).
Proof.
  pose proof (build_from_supplied (bytes "/opt/ax") other_unit other_unit_fresh) as Hb.
  set (st := State _ _) in Hb.
  destruct (run busy_caller st) as [[rs st']|] eqn:Hr; [|by vm_compute in Hr].
  destruct (resolved_value_stable _ _ _ _ _ _ Hb Hr) as (Hp & Hres & _).
  exists st, st', rs. split; [exact Hb|]. split; [exact Hr|]. split.
  - vm_compute in Hr. injection Hr as _ <-. intros Heq.
    apply (f_equal (λ s, mem s !! 0)) in Heq. vm_compute in Heq. discriminate.
  - split; [by rewrite Hp | by rewrite Hres].
Defined.

(** C7.  Resolution takes no input where it is read, and the build
    parameter alone determines it.  Two builds with the same parameter,
    started from any two translation units and followed by any operations of
    their callers, resolve to the same value, and that value is [resolve p],
    a function of the parameter. *)
Theorem resolution_determined_by_parameter
    (p : option (list byte)) (sa sb ta tb ta' tb' : state)
    (opsa opsb : list op) (ra rb : list outcome) :
  build_from p sa = Ok ta →
  build_from p sb = Ok tb →
  run opsa ta = Some (ra, ta') →
  run opsb tb = Some (rb, tb') →
  resolved ta' = resolve p ∧ resolved tb' = resolve p.
Proof.
  assert (∀ s t t' ops r,
            build_from p s = Ok t → run ops t = Some (r, t') →
            resolved t' = resolve p) as Hone.
  { intros s t t' ops r Hb Hr.
    rewrite (resolved_preserved t t');
      [|by eapply build_from_declared | by eapply run_preserves].
    destruct p as [S|].
    - rewrite resolve_supplied. by eapply resolved_supplied_eq.
    - rewrite resolve_omitted. by eapply resolved_omitted. }
  intros Ha Hb Hra Hrb.
  split; [exact (Hone _ _ _ _ _ Ha Hra) | exact (Hone _ _ _ _ _ Hb Hrb)].
Qed.

Lemma resolution_determined_by_parameter_witness :
  ∃ ta tb ta' tb' ra rb,
    build_from (Some (bytes "/opt/ax")) initial = Ok ta ∧
    build_from (Some (bytes "/opt/ax")) other_unit = Ok tb ∧
    run [Load "AXLOCKD_PATH" 0] ta = Some (ra, ta') ∧
    run busy_caller tb = Some (rb, tb') ∧
    AXLOCKD_PATH ta' ≠ AXLOCKD_PATH tb' ∧
    resolved ta' = Some (Present (bytes "/opt/ax")) ∧
    resolved tb' = Some (Present (bytes "/opt/ax")).
Proof.
  pose proof (build_from_supplied (bytes "/opt/ax") initial initial_fresh) as Ha.
  pose proof (build_from_supplied (bytes "/opt/ax") other_unit other_unit_fresh) as Hb.
  set (ta := State _ _) in Ha. set (tb := State _ _) in Hb.
  destruct (run [Load "AXLOCKD_PATH" 0] ta) as [[ra ta']|] eqn:Hra;
    [|by vm_compute in Hra].
  destruct (run busy_caller tb) as [[rb tb']|] eqn:Hrb; [|by vm_compute in Hrb].
  destruct (resolution_determined_by_parameter _ _ _ _ _ _ _ _ _ _ _ Ha Hb Hra Hrb)
    as [Hresa Hresb].
  exists ta, tb, ta', tb', ra, rb.
  split; [exact Ha|]. split; [exact Hb|]. split; [exact Hra|]. split; [exact Hrb|].
  split; [|by rewrite Hresa, Hresb].
  vm_compute in Hra, Hrb. injection Hra as _ <-. injection Hrb as _ <-.
  vm_compute. discriminate.
Defined.

(** C9.  The resolver does not check that the supplied string is an
    absolute path.  Whatever the string, relative, with blanks, or no path at
    all, AXLOCKD_PATH is a non-null pointer to its bytes, the resolved value
    is present, and it is that string unchanged. *)
Theorem no_validation_of_supplied_string (S : list byte) (st0 : state) :
  globals st0 !! "AXLOCKD_PATH" = None →
  ∃ st q,
    build_from (Some S) st0 = Ok st ∧
    AXLOCKD_PATH st = Some q ∧ q ≠ Vnull ∧
    pointee st q = Some (S ++ [NUL]) ∧
    resolved st ≠ Some Absent ∧
    (NUL ∉ S → resolved st = Some (Present S)).
Proof.
  intros Hfresh. pose proof (build_from_supplied S st0 Hfresh) as Hb.
  eexists _, (Vptr (length (mem st0)) 0). split; [exact Hb|].
  split; [by eapply AXLOCKD_PATH_supplied|]. split; [done|].
  split; [by eapply pointee_supplied|].
  split; [by eapply resolved_supplied_not_Absent|].
  by eapply resolved_supplied_string.
Qed.

Lemma no_validation_of_supplied_string_witness :
  absolute (bytes " not a path\..\ax lockd ") = false ∧
  ∃ st,
    build_from (Some (bytes " not a path\..\ax lockd ")) initial = Ok st ∧
    resolved st = Some (Present (bytes " not a path\..\ax lockd ")).
Proof.
  split; [reflexivity|].
  destruct (no_validation_of_supplied_string (bytes " not a path\..\ax lockd ") initial)
    as (st & q & Hb & _ & _ & _ & _ & Hres).
  - reflexivity.
  - exists st. split; [exact Hb|].
    apply Hres. apply (bool_decide_unpack _). vm_compute. exact I.
Defined.

(** C10.  Present or absent is decided by whether the macro is defined, not
    by what it is defined as.  The resolved value is absent exactly when the
    macro table of the command line has no AXLOCKD_PATH_VALUE, present exactly
    when it has one, never both and always one of the two; and a supplied
    string, the empty one too, is present with that string as its value. *)
Theorem present_iff_macro_defined (p : option (list byte)) (st0 : state) :
  globals st0 !! "AXLOCKD_PATH" = None →
  ∃ st r,
    build_from p st0 = Ok st ∧
    resolved st = Some r ∧
    (r = Absent ↔ command_line p !! "AXLOCKD_PATH_VALUE" = None) ∧
    ((∃ s, r = Present s) ↔ is_Some (command_line p !! "AXLOCKD_PATH_VALUE")) ∧
    (∀ S, p = Some S →
          command_line p !! "AXLOCKD_PATH_VALUE" = Some (Rstring S) ∧
          (∃ q, AXLOCKD_PATH st = Some q ∧ q ≠ Vnull ∧
                pointee st q = Some (S ++ [NUL])) ∧
          (NUL ∉ S → r = Present S)).
Proof.
  intros Hfresh. destruct p as [S|].
  - pose proof (build_from_supplied S st0 Hfresh) as Hb.
    destruct (resolved_supplied _ _ _ Hb) as (s & Hres & _).
    eexists _, (Present s). split; [exact Hb|]. split; [exact Hres|].
    unfold command_line. rewrite lookup_singleton_eq.
    split; [done|]. split; [split; by eexists|].
    intros S' [= <-]. split; [done|]. split.
    + exists (Vptr (length (mem st0)) 0).
      split; [by eapply AXLOCKD_PATH_supplied|]. split; [done|].
      by eapply pointee_supplied.
    + intros HS. rewrite (resolved_supplied_string _ _ _ Hb HS) in Hres.
      congruence.
  - pose proof (build_from_omitted st0 Hfresh) as Hb.
    eexists _, Absent. split; [exact Hb|].
    split; [by eapply resolved_omitted|].
    unfold command_line. rewrite lookup_empty.
    split; [done|]. split; [|done].
    split; [by intros [s ?] | by intros [r ?]].
Qed.

Lemma present_iff_macro_defined_witness :
  ∃ st,
    build_from (Some []) other_unit = Ok st ∧
    resolved st = Some (Present []) ∧
    is_Some (command_line (Some []) !! "AXLOCKD_PATH_VALUE").
Proof.
  destruct (present_iff_macro_defined (Some []) other_unit)
    as (st & r & Hb & Hres & _ & [Hpres _] & Hlit).
  - reflexivity.
  - exists st. split; [exact Hb|].
    destruct (Hlit [] eq_refl) as (_ & _ & Hr).
    specialize (Hr (not_elem_of_nil NUL)).
    split; [by rewrite Hres, Hr|]. apply Hpres. by exists [].
Defined.

(** * Beyond the contract: the include guard and the edges of the data *)

(** ** The include guard *)

Lemma Config_h_guarded (M : gmap string replacement) :
  is_Some (M !! "AX_CONFIG_H") → Config_h M = ([], M).
Proof. intros [r Hr]. unfold Config_h. by rewrite Hr. Qed.

Lemma Config_h_sets_guard (M : gmap string replacement) :
  is_Some (snd (Config_h M) !! "AX_CONFIG_H").
Proof.
  unfold Config_h. destruct (M !! "AX_CONFIG_H") as [r|] eqn:HM; simpl.
  - by rewrite HM.
  - destruct (<["AX_CONFIG_H":=Rnothing]> M !! "AXLOCKD_PATH_VALUE"); simpl;
      by rewrite lookup_insert_eq.
Qed.

Lemma include_times_guarded (n : nat) (M : gmap string replacement) :
  is_Some (M !! "AX_CONFIG_H") → include_times n M = ([], M).
Proof.
  intros HM. induction n as [|n IH]; simpl; [done|].
  by rewrite Config_h_guarded, IH.
Qed.

(** X1.  However often the header is included, the translation unit gets
    what one inclusion gives: the same declarations, the same macro table,
    and so the same build. *)
Theorem include_times_once (n : nat) (M : gmap string replacement) (st0 : state) :
  include_times (S n) M = Config_h M ∧
  elab_decls (fst (include_times (S n) M)) st0 = build_under M st0.
Proof.
  assert (include_times (S n) M = Config_h M) as Heq.
  { simpl. destruct (Config_h M) as [ds M1] eqn:HC.
    rewrite include_times_guarded.
    - by rewrite app_nil_r.
    - pose proof (Config_h_sets_guard M) as Hg. by rewrite HC in Hg. }
  split; [done|]. by rewrite Heq.
Qed.

(** X2.  The header defines its guard and touches no other macro: whatever
    the table, AX_CONFIG_H is defined afterwards, and apart from it the table
    is the one the header found. *)
Theorem Config_h_macro_frame (M : gmap string replacement) :
  is_Some (snd (Config_h M) !! "AX_CONFIG_H") ∧
  delete "AX_CONFIG_H" (snd (Config_h M)) = delete "AX_CONFIG_H" M.
Proof.
  split; [apply Config_h_sets_guard|].
  unfold Config_h. destruct (M !! "AX_CONFIG_H") as [r|] eqn:HM; simpl; [done|].
  destruct (<["AX_CONFIG_H":=Rnothing]> M !! "AXLOCKD_PATH_VALUE"); simpl;
    by rewrite delete_insert_eq.
Qed.


(** The declaration, read off the table the header is included under: the
    definition of the guard does not disturb the test of the parameter. *)
Lemma Config_h_unguarded (M : gmap string replacement) :
  M !! "AX_CONFIG_H" = None →
  fst (Config_h M)
  = [static_const_char_ptr_const "AXLOCKD_PATH"
       (match M !! "AXLOCKD_PATH_VALUE" with
        | Some r => Iexpansion r
        | None => Inull_cast
        end)].
Proof.
  intros HM. unfold Config_h. rewrite HM.
  rewrite lookup_insert_ne by done.
  by destruct (M !! "AXLOCKD_PATH_VALUE").
Qed.



(** X4.  A build that defines the guard itself gets no declaration from
    the header, even when it supplies a path: the translation unit is left as
    it is, and [AXLOCKD_PATH] names nothing a caller could read. *)
Theorem guard_predefined_declares_nothing
    (M : gmap string replacement) (st0 : state) :
  is_Some (M !! "AX_CONFIG_H") →
  globals st0 !! "AXLOCKD_PATH" = None →
  build_under M st0 = Ok st0 ∧
  resolved st0 = None ∧
  exec (Read "AXLOCKD_PATH") st0 = None.
Proof.
  intros HM Hfresh. unfold build_under. rewrite Config_h_guarded by done.
  split; [done|]. unfold resolved, AXLOCKD_PATH. simpl. by rewrite Hfresh.
Qed.

Lemma guard_predefined_declares_nothing_witness :
  build_under (<["AX_CONFIG_H" := Rnothing]> (command_line (Some (bytes "/opt/ax"))))
              other_unit
  = Ok other_unit ∧
  resolved other_unit = None.
Proof.
  destruct (guard_predefined_declares_nothing
              (<["AX_CONFIG_H" := Rnothing]> (command_line (Some (bytes "/opt/ax"))))
              other_unit) as (Hb & Hres & _).
  - by eexists.
  - reflexivity.
  - by split.
Defined.

(** X5.  [#ifdef] asks whether the macro is defined, not what it is defined
    as.  A build that defines AXLOCKD_PATH_VALUE as nothing takes the first
    branch, whose initializer is then empty: it does not fall back to the
    null pointer, it fails. *)
Theorem empty_definition_is_an_error (M : gmap string replacement) (st0 : state) :
  M !! "AX_CONFIG_H" = None →
  M !! "AXLOCKD_PATH_VALUE" = Some Rnothing →
  globals st0 !! "AXLOCKD_PATH" = None →
  build_under M st0 = Error Syntax_error ∧
  build_under (delete "AXLOCKD_PATH_VALUE" M) st0 = build_from None st0.
Proof.
  intros HM Hv Hfresh. split.
  - unfold build_under. rewrite Config_h_unguarded by done. rewrite Hv.
    simpl. unfold elab_decl. simpl. by rewrite Hfresh.
  - unfold build_under, build_from.
    rewrite Config_h_unguarded by (by rewrite lookup_delete_ne).
    by rewrite lookup_delete_eq.
Qed.

Lemma empty_definition_is_an_error_witness :
  build_under {["AXLOCKD_PATH_VALUE" := Rnothing]} initial = Error Syntax_error.
Proof.
  apply (empty_definition_is_an_error {["AXLOCKD_PATH_VALUE" := Rnothing]} initial);
    reflexivity.
Defined.

(** ** The edges of the string and of its array *)

Lemma cstring_split (bs s : list byte) :
  cstring bs = Some s → ∃ t, bs = s ++ NUL :: t.
Proof.
  revert s. induction bs as [|c bs IH]; intros s; cbn [cstring]; [done|].
  destruct (decide (c = NUL)) as [->|Hc].
  - intros [= <-]. by exists bs.
  - destruct (cstring bs) as [s'|]; simpl; [|done].
    intros [= <-]. destruct (IH s' eq_refl) as [t ->]. by exists t.
Qed.

(** X6.  A literal with a null character inside is cut there.  For every
    supplied literal the caller reads a string: it is the part of the literal
    before its first null character, so it is the whole literal exactly when
    the literal holds none. *)
Theorem caller_reads_up_to_first_NUL (S : list byte) (st0 : state) :
  globals st0 !! "AXLOCKD_PATH" = None →
  ∃ st s,
    build_from (Some S) st0 = Ok st ∧
    resolved st = Some (Present s) ∧
    s `prefix_of` S ∧
    (NUL ∉ s) ∧
    (s = S ↔ NUL ∉ S) ∧
    (s ≠ S → S !! length s = Some NUL).
Proof.
  intros Hfresh. pose proof (build_from_supplied S st0 Hfresh) as Hb.
  pose proof (resolved_supplied_eq _ _ _ Hb) as Hres.
  destruct (cstring_terminated S []) as (s & Hs & Hpre).
  rewrite Hs in Hres. simpl in Hres.
  pose proof (cstring_no_NUL _ _ Hs) as Hnul.
  eexists _, s. split; [exact Hb|]. split; [exact Hres|].
  split; [done|]. split; [done|]. split.
  - split; [by intros <-|].
    intros HS. rewrite cstring_string in Hs by done. congruence.
  - intros Hne. destruct (cstring_split _ _ Hs) as [t Ht].
    assert (length s < length S) as Hlen.
    { destruct t as [|c t].
      - apply app_inj_tail in Ht as [-> _]. done.
      - apply (f_equal length) in Ht. rewrite !length_app in Ht. simpl in Ht. lia. }
    rewrite <- (lookup_app_l S [NUL]) by done. rewrite Ht.
    rewrite lookup_app_r by lia. by rewrite Nat.sub_diag.
Qed.

Lemma caller_reads_up_to_first_NUL_witness :
  ∃ st,
    build_from (Some (bytes "/opt" ++ NUL :: bytes "/ax")) initial = Ok st ∧
    resolved st = Some (Present (bytes "/opt")).
Proof.
  destruct (caller_reads_up_to_first_NUL (bytes "/opt" ++ NUL :: bytes "/ax") initial)
    as (st & s & Hb & Hres & _).
  - reflexivity.
  - exists st. split; [exact Hb|].
    rewrite (resolved_supplied_eq _ _ _ Hb). reflexivity.
Defined.

(** X7.  What a caller may dereference.  In a build that supplies [S], the
    array behind AXLOCKD_PATH has the chars of [S] and one more, the null
    character: index [i] reads that char and changes nothing, and an index
    past the terminator reads nothing.  In a build that omits the parameter
    no index reads anything: the pointer is null. *)
Theorem Load_AXLOCKD_PATH_bounds (p : option (list byte)) (st0 : state) :
  globals st0 !! "AXLOCKD_PATH" = None →
  ∃ st,
    build_from p st0 = Ok st ∧
    (∀ i, exec (Load "AXLOCKD_PATH" i) st
          = match p with
            | Some lit => (λ c, (Ochar c, st)) <$> (lit ++ [NUL]) !! i
            | None => None
            end) ∧
    (∀ i, is_Some (exec (Load "AXLOCKD_PATH" i) st)
          ↔ ∃ lit, p = Some lit ∧ i ≤ length lit).
Proof.
  intros Hfresh.
  assert (∃ st, build_from p st0 = Ok st ∧
                ∀ i, exec (Load "AXLOCKD_PATH" i) st
                     = match p with
                       | Some lit => (λ c, (Ochar c, st)) <$> (lit ++ [NUL]) !! i
                       | None => None
                       end) as (st & Hb & Hload).
  { destruct p as [S|].
    - pose proof (build_from_supplied S st0 Hfresh) as Hb.
      eexists. split; [exact Hb|]. intros i.
      set (st := State _ _) in *.
      pose proof (AXLOCKD_PATH_supplied _ _ _ Hb) as Hp.
      pose proof (literal_supplied _ _ _ Hb) as Hlit.
      unfold AXLOCKD_PATH in Hp. cbn [exec].
      destruct (globals st !! "AXLOCKD_PATH") as [g|]; [|done].
      injection Hp as Hp. cbn [mbind option_bind]. rewrite Hp.
      unfold load_char. rewrite Hlit. cbn [mbind option_bind contents].
      rewrite Nat.add_0_l. by destruct ((S ++ [NUL]) !! i).
    - pose proof (build_from_omitted st0 Hfresh) as Hb.
      eexists. split; [exact Hb|]. intros i.
      set (st := State _ _) in *.
      pose proof (AXLOCKD_PATH_omitted _ _ Hb) as Hp.
      unfold AXLOCKD_PATH in Hp. cbn [exec].
      destruct (globals st !! "AXLOCKD_PATH") as [g|]; [|done].
      injection Hp as Hp. cbn [mbind option_bind]. by rewrite Hp. }
  exists st. split; [done|]. split; [done|].
  intros i. rewrite Hload. destruct p as [S|].
  - rewrite fmap_is_Some, lookup_lt_is_Some, length_app. simpl. split.
    + intros Hi. exists S. split; [done|lia].
    + intros (lit & [= <-] & Hi). lia.
  - split; [by intros [? ?]|]. by intros (lit & ? & _).
Qed.

Lemma Load_AXLOCKD_PATH_bounds_witness :
  ∃ st,
    build_from (Some (bytes "/ax")) other_unit = Ok st ∧
    exec (Load "AXLOCKD_PATH" 2) st = Some (Ochar "x"%byte, st) ∧
    exec (Load "AXLOCKD_PATH" 3) st = Some (Ochar NUL, st) ∧
    exec (Load "AXLOCKD_PATH" 4) st = None.
Proof.
  destruct (Load_AXLOCKD_PATH_bounds (Some (bytes "/ax")) other_unit)
    as (st & Hb & Hload & _).
  - reflexivity.
  - exists st. split; [exact Hb|]. by rewrite !Hload.
Defined.

(** ** When a build fails *)

